(** * DE_Approx: fixed-step integrators of dy/dt = f(t, y) (src/src/main.rs)

    Shallow embedding of the Rust program.
    - [f64] is Rocq's primitive binary64 [float]: IEEE 754 double with
      round-to-nearest-even, the arithmetic Rust's [f64] has.
    - [usize] step counts are [nat]; a [for _ in 0..steps] loop is
      structural recursion on the count.
    - The effects of the integrators are threaded through a small state
      monad over a [world]: [time::precise_time_s] reads an arbitrary clock,
      [println!] appends to an output trace, and the derivative closure may
      carry hidden state of its own (a Rust [Fn] closure may hold a [Cell],
      e.g. a call counter), so a derivative is
      [float -> float -> S -> float * S]; a pure closure ignores [S]. *)

From Stdlib Require Import ZArith List String Bool Lia.
From Stdlib Require Import Floats.
Import ListNotations.

Open Scope float_scope.
(** Decimal literals such as [0.2] are rounded to the nearest binary64 value,
    as Rust rounds them. *)
Set Warnings "-inexact-float".

(** ** Observable events of a run *)

Inductive event : Type :=
| PrintLine (line : string)
    (** a [println!] of a constant line *)
| PrintApprox (method : string) (value secs : float)
    (** [println!("{method} Approximation: {}\nTime: {} seconds\n", value, secs)] *)
| PrintTotal (label : string) (secs : float)
    (** [println!("{label} Time: {} seconds", secs)] and the gains line *)
| Spawn (method : string) (steps : nat).
    (** [thread::spawn] of an integrator worker *)

(** ** The world and the state monad *)

Set Primitive Projections.
Record world (S : Type) : Type := mk_world {
  clock : nat -> float;   (** reading number i of [precise_time_s] *)
  ticks : nat;            (** readings taken so far *)
  trace : list event;     (** output so far, oldest first *)
  de_st : S               (** hidden state of the derivative closure *)
}.
Unset Primitive Projections.
Arguments mk_world {S} _ _ _ _.
Arguments clock {S} _ _.
Arguments ticks {S} _.
Arguments trace {S} _.
Arguments de_st {S} _.

Definition M (S A : Type) : Type := world S -> A * world S.

Definition ret {S A} (a : A) : M S A := fun w => (a, w).

Definition bind {S A B} (m : M S A) (k : A -> M S B) : M S B :=
  fun w => let (a, w') := m w in k a w'.

Notation "x <- m ;; k" := (bind m (fun x => k))
  (at level 61, m at next level, right associativity).
Notation "' p <- m ;; k" := (bind m (fun x => match x with p => k end))
  (at level 61, p pattern, m at next level, right associativity).

(** [time::precise_time_s()] *)
Definition precise_time_s {S} : M S float :=
  fun w => (clock w (ticks w), mk_world (clock w) (Nat.succ (ticks w)) (trace w) (de_st w)).

(** [println!] *)
Definition emit {S} (e : event) : M S unit :=
  fun w => (tt, mk_world (clock w) (ticks w) (trace w ++ [e]) (de_st w)).

(** A derivative closure [F : Fn(f64, f64) -> f64] *)
Definition deriv (S : Type) : Type := float -> float -> S -> float * S.

(** Calling the closure: [de(t, y)] *)
Definition call {S} (de : deriv S) (t y : float) : M S float :=
  fun w => let (r, s') := de t y (de_st w) in
           (r, mk_world (clock w) (ticks w) (trace w) s').

(** A closure without interior state. *)
Definition pure_de {S} (f : float -> float -> float) : deriv S :=
  fun t y s => (f t y, s).

(** ** [mod threaded_funcs] (main.rs lines 84-134): the [Arc<F>] versions *)
Module threaded_funcs.

Section Integrators.
Context {S : Type} (de : deriv S).

(** [for _ in 0..steps { ycurrent += h*de(tcurrent,ycurrent); tcurrent += h; }] *)
Fixpoint euler_loop (steps : nat) (h ycurrent tcurrent : float)
  : M S (float * float) :=
  match steps with
  | O => ret (ycurrent, tcurrent)
  | Datatypes.S n =>
      d <- call de tcurrent ycurrent ;;
      euler_loop n h (ycurrent + h * d) (tcurrent + h)
  end.

Definition euler_method (y0 t0 : float) (steps : nat) (h : float)
  : M S (float * float) :=
  start <- precise_time_s ;;
  '(ycurrent, _) <- euler_loop steps h y0 t0 ;;
  now <- precise_time_s ;;
  ret (ycurrent, now - start).

(** [let k1 = de(tcurrent,ycurrent);
     ycurrent += half_h*(k1 + de(tcurrent + h , ycurrent + h*k1));
     tcurrent += h;] *)
Fixpoint improved_euler_loop (steps : nat) (h half_h ycurrent tcurrent : float)
  : M S (float * float) :=
  match steps with
  | O => ret (ycurrent, tcurrent)
  | Datatypes.S n =>
      k1 <- call de tcurrent ycurrent ;;
      k2 <- call de (tcurrent + h) (ycurrent + h * k1) ;;
      improved_euler_loop n h half_h (ycurrent + half_h * (k1 + k2)) (tcurrent + h)
  end.

Definition improved_euler (y0 t0 : float) (steps : nat) (h : float)
  : M S (float * float) :=
  start <- precise_time_s ;;
  let half_h := h / 2 in
  '(ycurrent, _) <- improved_euler_loop steps h half_h y0 t0 ;;
  now <- precise_time_s ;;
  ret (ycurrent, now - start).

Fixpoint runge_kutta_loop (steps : nat) (h half_h sixth_h ycurrent tcurrent : float)
  : M S (float * float) :=
  match steps with
  | O => ret (ycurrent, tcurrent)
  | Datatypes.S n =>
      k1 <- call de tcurrent ycurrent ;;
      k2 <- call de (tcurrent + half_h) (ycurrent + half_h * k1) ;;
      k3 <- call de (tcurrent + half_h) (ycurrent + half_h * k2) ;;
      k4 <- call de (tcurrent + h) (ycurrent + h * k3) ;;
      runge_kutta_loop n h half_h sixth_h
        (ycurrent + sixth_h * (k1 + 2 * k2 + 2 * k3 + k4)) (tcurrent + h)
  end.

Definition runge_kutta (y0 t0 : float) (steps : nat) (h : float)
  : M S (float * float) :=
  start <- precise_time_s ;;
  let half_h := h / 2 in
  let sixth_h := h / 6 in
  '(ycurrent, _) <- runge_kutta_loop steps h half_h sixth_h y0 t0 ;;
  now <- precise_time_s ;;
  ret (ycurrent, now - start).

End Integrators.
End threaded_funcs.

(** ** [mod serial_funcs] (main.rs lines 137-194): the [&F] versions, which
    also print their result. *)
Module serial_funcs.

(** [regular_de]: [10.0 - 0.2 * y - 0.27 * y.powf(1.5)]. [f64::powf] is the
    C library's [pow], which has no Rocq primitive: it is a parameter. *)
Definition regular_de (powf : float -> float -> float) (t y : float) : float :=
  10 - 0.2 * y - 0.27 * powf y 1.5.

Section Integrators.
Context {S : Type} (de : deriv S).

Fixpoint euler_loop (steps : nat) (h ycurrent tcurrent : float)
  : M S (float * float) :=
  match steps with
  | O => ret (ycurrent, tcurrent)
  | Datatypes.S n =>
      d <- call de tcurrent ycurrent ;;
      euler_loop n h (ycurrent + h * d) (tcurrent + h)
  end.

Definition euler_method (y0 t0 : float) (steps : nat) (h : float)
  : M S (float * float) :=
  start <- precise_time_s ;;
  '(ycurrent, _) <- euler_loop steps h y0 t0 ;;
  now <- precise_time_s ;;
  let end_ := now - start in
  _ <- emit (PrintApprox "Euler" ycurrent end_) ;;
  ret (ycurrent, end_).

Fixpoint improved_euler_loop (steps : nat) (h half_h ycurrent tcurrent : float)
  : M S (float * float) :=
  match steps with
  | O => ret (ycurrent, tcurrent)
  | Datatypes.S n =>
      k1 <- call de tcurrent ycurrent ;;
      k2 <- call de (tcurrent + h) (ycurrent + h * k1) ;;
      improved_euler_loop n h half_h (ycurrent + half_h * (k1 + k2)) (tcurrent + h)
  end.

Definition improved_euler (y0 t0 : float) (steps : nat) (h : float)
  : M S (float * float) :=
  start <- precise_time_s ;;
  let half_h := h / 2 in
  '(ycurrent, _) <- improved_euler_loop steps h half_h y0 t0 ;;
  now <- precise_time_s ;;
  let end_ := now - start in
  _ <- emit (PrintApprox "Heun" ycurrent end_) ;;
  ret (ycurrent, end_).

Fixpoint runge_kutta_loop (steps : nat) (h half_h sixth_h ycurrent tcurrent : float)
  : M S (float * float) :=
  match steps with
  | O => ret (ycurrent, tcurrent)
  | Datatypes.S n =>
      k1 <- call de tcurrent ycurrent ;;
      k2 <- call de (tcurrent + half_h) (ycurrent + half_h * k1) ;;
      k3 <- call de (tcurrent + half_h) (ycurrent + half_h * k2) ;;
      k4 <- call de (tcurrent + h) (ycurrent + h * k3) ;;
      runge_kutta_loop n h half_h sixth_h
        (ycurrent + sixth_h * (k1 + 2 * k2 + 2 * k3 + k4)) (tcurrent + h)
  end.

Definition runge_kutta (y0 t0 : float) (steps : nat) (h : float)
  : M S (float * float) :=
  start <- precise_time_s ;;
  let half_h := h / 2 in
  let sixth_h := h / 6 in
  '(ycurrent, _) <- runge_kutta_loop steps h half_h sixth_h y0 t0 ;;
  now <- precise_time_s ;;
  let end_ := now - start in
  _ <- emit (PrintApprox "Runge Kutta" ycurrent end_) ;;
  ret (ycurrent, end_).

End Integrators.
End serial_funcs.

(** ** [fn main] (main.rs lines 9-82) *)

(** [usize::MAX] on a 64-bit target. *)
Definition usize_max : Z := (2 ^ 64 - 1)%Z.

(** [x.round() as usize]: [f64::round] rounds half-way cases away from zero;
    the float-to-integer [as] cast saturates: NaN and every negative value
    (after rounding, -0.0 included) give 0, values above [usize::MAX] and
    +inf give [usize::MAX]. Computed on the exact value
    (-1)^s * m * 2^e of a finite float. *)
Definition round_as_usize (x : float) : Z :=
  match Prim2SF x with
  | S754_zero _ | S754_nan | S754_infinity true | S754_finite true _ _ => 0%Z
  | S754_infinity false => usize_max
  | S754_finite false m e =>
      let r :=
        if (0 <=? e)%Z then (Z.pos m * 2 ^ e)%Z
        else
          let k := (- e)%Z in
          let q := Z.shiftr (Z.pos m) k in
          let rem := (Z.pos m - q * 2 ^ k)%Z in
          if (2 ^ k <=? 2 * rem)%Z then (q + 1)%Z else q
      in Z.min r usize_max
  end.

(** The constants [Y0], [T0], [T_END] and [H] of [main]. *)
Record config : Type := mk_config {
  Y0 : float; T0 : float; T_END : float; H : float
}.

(** [const Y0:f64 = 0.0; const T0:f64 = 0.0; const T_END:f64 = 5.0;
     const H:f64 = 0.00000005;] *)
Definition main_config : config := mk_config 0 0 5 0.00000005.

(** [let steps = ((T_END - T0)/H).round() as usize;] *)
Definition steps_of (c : config) : nat :=
  Z.to_nat (round_as_usize ((T_END c - T0 c) / H c)).

(** The closure [de] of [main] (lines 17-19), shared through an [Arc]. *)
Definition de (powf : float -> float -> float) (t y : float) : float :=
  10 - 0.2 * y - 0.27 * powf y 1.5.

(** The body of [main] over its constants. The three workers are modelled
    by one schedule: each spawned worker runs to completion when it is
    joined, in join order; the closure has no state ([unit]). *)
Definition main_with (powf : float -> float -> float) (c : config) : M unit unit :=
  _ <- emit (PrintLine "----Threaded Execution with Atomic Reference Counting----") ;;
  let steps := steps_of c in
  let de_share := pure_de (de powf) in
  time <- precise_time_s ;;
  _ <- emit (Spawn "euler" steps) ;;
  _ <- emit (Spawn "heun" steps) ;;
  _ <- emit (Spawn "runge" steps) ;;
  euler_answer <- threaded_funcs.euler_method de_share (Y0 c) (T0 c) steps (H c) ;;
  _ <- emit (PrintApprox "Euler" (fst euler_answer) (snd euler_answer)) ;;
  heun_answer <- threaded_funcs.improved_euler de_share (Y0 c) (T0 c) steps (H c) ;;
  _ <- emit (PrintApprox "Heun" (fst heun_answer) (snd heun_answer)) ;;
  runge_answer <- threaded_funcs.runge_kutta de_share (Y0 c) (T0 c) steps (H c) ;;
  _ <- emit (PrintApprox "Runge Kutta" (fst runge_answer) (snd runge_answer)) ;;
  now <- precise_time_s ;;
  let total := now - time in
  _ <- emit (PrintLine "----Serialized Execution without Arc----") ;;
  let serial_de := pure_de (serial_funcs.regular_de powf) in
  e <- serial_funcs.euler_method serial_de (Y0 c) (T0 c) steps (H c) ;;
  hh <- serial_funcs.improved_euler serial_de (Y0 c) (T0 c) steps (H c) ;;
  r <- serial_funcs.runge_kutta serial_de (Y0 c) (T0 c) steps (H c) ;;
  let serialized := 0 + snd e + snd hh + snd r in
  _ <- emit (PrintLine "---RESULTS---") ;;
  _ <- emit (PrintTotal "Threaded" total) ;;
  _ <- emit (PrintTotal "Serialized" serialized) ;;
  emit (PrintTotal "Gains from Threading" (serialized - total)).

Definition main (powf : float -> float -> float) : M unit unit :=
  main_with powf main_config.

(** ** The contracts of the spec, written from its words (section 4)

    Sequences indexed by the step number i, giving (t_i, y_i). They are
    compared with the loops of the source in the theorems below. *)
Module Spec.
Section Contracts.
Variable f : float -> float -> float.
Variables (h t0 y0 : float).

(** 4.1: y_{i+1} = y_i + h * f(t_i, y_i), t_{i+1} = t_i + h. *)
Fixpoint euler (i : nat) : float * float :=
  match i with
  | O => (t0, y0)
  | Datatypes.S i =>
      let '(t_i, y_i) := euler i in
      (t_i + h, y_i + h * f t_i y_i)
  end.

(** 4.2: k1 = f(t_i, y_i); y_predict = y_i + h*k1;
    y_{i+1} = y_i + (h/2) * (k1 + f(t_i+h, y_predict)); t_{i+1} = t_i + h. *)
Fixpoint heun (i : nat) : float * float :=
  match i with
  | O => (t0, y0)
  | Datatypes.S i =>
      let '(t_i, y_i) := heun i in
      let k1 := f t_i y_i in
      let y_predict := y_i + h * k1 in
      (t_i + h, y_i + (h / 2) * (k1 + f (t_i + h) y_predict))
  end.

(** 4.3: k1 = f(t_i, y_i); k2 = f(t_i + h/2, y_i + (h/2)*k1);
    k3 = f(t_i + h/2, y_i + (h/2)*k2); k4 = f(t_i + h, y_i + h*k3);
    y_{i+1} = y_i + (h/6)*(k1 + 2*k2 + 2*k3 + k4); t_{i+1} = t_i + h. *)
Fixpoint rk4 (i : nat) : float * float :=
  match i with
  | O => (t0, y0)
  | Datatypes.S i =>
      let '(t_i, y_i) := rk4 i in
      let k1 := f t_i y_i in
      let k2 := f (t_i + h / 2) (y_i + (h / 2) * k1) in
      let k3 := f (t_i + h / 2) (y_i + (h / 2) * k2) in
      let k4 := f (t_i + h) (y_i + h * k3) in
      (t_i + h, y_i + (h / 6) * (k1 + 2 * k2 + 2 * k3 + k4))
  end.

End Contracts.
End Spec.

(** ** Instrumented derivative closures (test doubles) *)

(** A call-counting closure: [f] with a [Cell<usize>] bumped on each call. *)
Definition counting_de (f : float -> float -> float) : deriv nat :=
  fun t y n => (f t y, Datatypes.S n).

(** A closure that records every value it returns. *)
Definition logging_de (f : float -> float -> float) : deriv (list float) :=
  fun t y l => let r := f t y in (r, l ++ [r]).

(** A value that is NaN or an infinity. *)
Definition anomalous (x : float) : bool :=
  match Prim2SF x with
  | S754_nan | S754_infinity _ => true
  | _ => false
  end.

(** [for _ in 0..n { body }] over a loop state [a]: exactly [n] runs of
    [body], with no exit condition of its own. *)
Fixpoint for_range {S A} (n : nat) (body : A -> M S A) (a : A) : M S A :=
  match n with
  | O => ret a
  | Datatypes.S n => a' <- body a ;; for_range n body a'
  end.

(** The bodies of the three [for] loops, over the loop state
    [(ycurrent, tcurrent)]. *)
Definition euler_body {S} (de : deriv S) (h : float) (s : float * float)
  : M S (float * float) :=
  let '(ycurrent, tcurrent) := s in
  d <- call de tcurrent ycurrent ;;
  ret (ycurrent + h * d, tcurrent + h).

Definition improved_euler_body {S} (de : deriv S) (h half_h : float) (s : float * float)
  : M S (float * float) :=
  let '(ycurrent, tcurrent) := s in
  k1 <- call de tcurrent ycurrent ;;
  k2 <- call de (tcurrent + h) (ycurrent + h * k1) ;;
  ret (ycurrent + half_h * (k1 + k2), tcurrent + h).

Definition runge_kutta_body {S} (de : deriv S) (h half_h sixth_h : float) (s : float * float)
  : M S (float * float) :=
  let '(ycurrent, tcurrent) := s in
  k1 <- call de tcurrent ycurrent ;;
  k2 <- call de (tcurrent + half_h) (ycurrent + half_h * k1) ;;
  k3 <- call de (tcurrent + half_h) (ycurrent + half_h * k2) ;;
  k4 <- call de (tcurrent + h) (ycurrent + h * k3) ;;
  ret (ycurrent + sixth_h * (k1 + 2 * k2 + 2 * k3 + k4), tcurrent + h).

(** [m] only ever adds lines to the output. *)
Definition appends {S A} (m : M S A) : Prop :=
  forall w, exists sfx, trace (snd (m w)) = trace w ++ sfx.

(** [run] has added [calls] to the log it started from ([log0]), and an
    anomalous value among [y] and [calls] reaches its final state. *)
Definition logs_anomaly (y : float) (log0 : list float)
  (run : (float * float) * world (list float)) : Prop :=
  exists calls, de_st (snd run) = log0 ++ calls
    /\ (anomalous y = true \/ existsb anomalous calls = true ->
        anomalous (fst (fst run)) = true).

(** The three [thread::spawn] of [main], in order. *)
Definition spawns (steps : nat) : list event :=
  [Spawn "euler" steps; Spawn "heun" steps; Spawn "runge" steps].

(** [m] reads no clock and prints nothing. *)
Definition quiet {S A} (m : M S A) : Prop :=
  forall w, clock (snd (m w)) = clock w /\ ticks (snd (m w)) = ticks w
            /\ trace (snd (m w)) = trace w.

Definition w0 {S} (s : S) : world S := mk_world (fun _ => 0) 0 [] s.

Example euler_ex :
  fst (fst (threaded_funcs.euler_method (S:=unit) (pure_de (fun _ y => y)) 1 0 3 0.5 (w0 tt)))
  = 3.375.
Proof. vm_compute. reflexivity. Qed.

Example steps_main :
  round_as_usize ((T_END main_config - T0 main_config) / H main_config) = 100000000%Z.
Proof. vm_compute. reflexivity. Qed.
Example round_ex : (round_as_usize 2.5 = 3 /\ round_as_usize 2.4 = 2 /\ round_as_usize (-7) = 0
  /\ round_as_usize (1/0) = usize_max /\ round_as_usize (0/0) = 0)%Z.
Proof. vm_compute. repeat split. Qed.

(** ** Basic facts about the monad *)

Lemma call_pure {S} (f : float -> float -> float) (t y : float) (w : world S) :
  call (pure_de f) t y w = (f t y, w).
Proof. reflexivity. Qed.

(** ** The loops against the spec's sequences *)

Section PureLoops.
Context {S : Type} (f : float -> float -> float) (h t0 y0 : float).

(** One step of the loop against one step of the sequence. *)
Ltac loop_vs_seq IH :=
  let k := fresh "k" in let w := fresh "w" in
  intros k w;
  specialize (IH (Datatypes.S k) w);
  rewrite Nat.add_succ_r;
  simpl in IH |- *;
  lazymatch goal with
  | |- context [snd ?s] =>
      let t := fresh "t" in let y := fresh "y" in
      destruct s as [t y] eqn:?
  end;
  simpl in IH |- *;
  unfold bind; rewrite ?call_pure;
  exact IH.

Lemma threaded_euler_loop_seq (n : nat) : forall (k : nat) (w : world S),
  threaded_funcs.euler_loop (pure_de f) n h
    (snd (Spec.euler f h t0 y0 k)) (fst (Spec.euler f h t0 y0 k)) w
  = ((snd (Spec.euler f h t0 y0 (k + n)), fst (Spec.euler f h t0 y0 (k + n))), w).
Proof.
  induction n as [|n IH].
  - intros k w. rewrite Nat.add_0_r. reflexivity.
  - loop_vs_seq IH.
Qed.

Lemma threaded_improved_euler_loop_seq (n : nat) : forall (k : nat) (w : world S),
  threaded_funcs.improved_euler_loop (pure_de f) n h (h / 2)
    (snd (Spec.heun f h t0 y0 k)) (fst (Spec.heun f h t0 y0 k)) w
  = ((snd (Spec.heun f h t0 y0 (k + n)), fst (Spec.heun f h t0 y0 (k + n))), w).
Proof.
  induction n as [|n IH].
  - intros k w. rewrite Nat.add_0_r. reflexivity.
  - loop_vs_seq IH.
Qed.

Lemma threaded_runge_kutta_loop_seq (n : nat) : forall (k : nat) (w : world S),
  threaded_funcs.runge_kutta_loop (pure_de f) n h (h / 2) (h / 6)
    (snd (Spec.rk4 f h t0 y0 k)) (fst (Spec.rk4 f h t0 y0 k)) w
  = ((snd (Spec.rk4 f h t0 y0 (k + n)), fst (Spec.rk4 f h t0 y0 (k + n))), w).
Proof.
  induction n as [|n IH].
  - intros k w. rewrite Nat.add_0_r. reflexivity.
  - loop_vs_seq IH.
Qed.

Lemma serial_euler_loop_seq (n : nat) : forall (k : nat) (w : world S),
  serial_funcs.euler_loop (pure_de f) n h
    (snd (Spec.euler f h t0 y0 k)) (fst (Spec.euler f h t0 y0 k)) w
  = ((snd (Spec.euler f h t0 y0 (k + n)), fst (Spec.euler f h t0 y0 (k + n))), w).
Proof.
  induction n as [|n IH].
  - intros k w. rewrite Nat.add_0_r. reflexivity.
  - loop_vs_seq IH.
Qed.

Lemma serial_improved_euler_loop_seq (n : nat) : forall (k : nat) (w : world S),
  serial_funcs.improved_euler_loop (pure_de f) n h (h / 2)
    (snd (Spec.heun f h t0 y0 k)) (fst (Spec.heun f h t0 y0 k)) w
  = ((snd (Spec.heun f h t0 y0 (k + n)), fst (Spec.heun f h t0 y0 (k + n))), w).
Proof.
  induction n as [|n IH].
  - intros k w. rewrite Nat.add_0_r. reflexivity.
  - loop_vs_seq IH.
Qed.

Lemma serial_runge_kutta_loop_seq (n : nat) : forall (k : nat) (w : world S),
  serial_funcs.runge_kutta_loop (pure_de f) n h (h / 2) (h / 6)
    (snd (Spec.rk4 f h t0 y0 k)) (fst (Spec.rk4 f h t0 y0 k)) w
  = ((snd (Spec.rk4 f h t0 y0 (k + n)), fst (Spec.rk4 f h t0 y0 (k + n))), w).
Proof.
  induction n as [|n IH].
  - intros k w. rewrite Nat.add_0_r. reflexivity.
  - loop_vs_seq IH.
Qed.

Lemma threaded_euler_loop_start (n : nat) (w : world S) :
  threaded_funcs.euler_loop (pure_de f) n h y0 t0 w
  = ((snd (Spec.euler f h t0 y0 n), fst (Spec.euler f h t0 y0 n)), w).
Proof. exact (threaded_euler_loop_seq n 0 w). Qed.

Lemma threaded_improved_euler_loop_start (n : nat) (w : world S) :
  threaded_funcs.improved_euler_loop (pure_de f) n h (h / 2) y0 t0 w
  = ((snd (Spec.heun f h t0 y0 n), fst (Spec.heun f h t0 y0 n)), w).
Proof. exact (threaded_improved_euler_loop_seq n 0 w). Qed.

Lemma threaded_runge_kutta_loop_start (n : nat) (w : world S) :
  threaded_funcs.runge_kutta_loop (pure_de f) n h (h / 2) (h / 6) y0 t0 w
  = ((snd (Spec.rk4 f h t0 y0 n), fst (Spec.rk4 f h t0 y0 n)), w).
Proof. exact (threaded_runge_kutta_loop_seq n 0 w). Qed.

Lemma serial_euler_loop_start (n : nat) (w : world S) :
  serial_funcs.euler_loop (pure_de f) n h y0 t0 w
  = ((snd (Spec.euler f h t0 y0 n), fst (Spec.euler f h t0 y0 n)), w).
Proof. exact (serial_euler_loop_seq n 0 w). Qed.

Lemma serial_improved_euler_loop_start (n : nat) (w : world S) :
  serial_funcs.improved_euler_loop (pure_de f) n h (h / 2) y0 t0 w
  = ((snd (Spec.heun f h t0 y0 n), fst (Spec.heun f h t0 y0 n)), w).
Proof. exact (serial_improved_euler_loop_seq n 0 w). Qed.

Lemma serial_runge_kutta_loop_start (n : nat) (w : world S) :
  serial_funcs.runge_kutta_loop (pure_de f) n h (h / 2) (h / 6) y0 t0 w
  = ((snd (Spec.rk4 f h t0 y0 n), fst (Spec.rk4 f h t0 y0 n)), w).
Proof. exact (serial_runge_kutta_loop_seq n 0 w). Qed.

End PureLoops.

(** ** C1-C3: each integrator computes the spec's recurrence *)

Ltac run_method start :=
  unfold threaded_funcs.euler_method, threaded_funcs.improved_euler,
    threaded_funcs.runge_kutta, serial_funcs.euler_method,
    serial_funcs.improved_euler, serial_funcs.runge_kutta, bind, precise_time_s;
  cbn beta iota zeta;
  rewrite start; reflexivity.

(** C1. For every f, y0, t0, n, h, both Euler integrators
    ([threaded_funcs::euler_method], [serial_funcs::euler_method]) return
    y_n of y_{i+1} = y_i + h * f(t_i, y_i), t_{i+1} = t_i + h from (t0, y0);
    this holds for every h, positive or not. *)
Theorem euler_method_contract {S : Type} (f : float -> float -> float)
  (y0 t0 : float) (n : nat) (h : float) (w : world S) :
  fst (fst (threaded_funcs.euler_method (pure_de f) y0 t0 n h w))
    = snd (Spec.euler f h t0 y0 n)
  /\ fst (fst (serial_funcs.euler_method (pure_de f) y0 t0 n h w))
    = snd (Spec.euler f h t0 y0 n).
Proof.
  split; [run_method @threaded_euler_loop_start | run_method @serial_euler_loop_start].
Qed.

(** C2. For every f, y0, t0, n, h, both Heun integrators return y_n of
    k1 = f(t_i, y_i), y_predict = y_i + h*k1,
    y_{i+1} = y_i + (h/2) * (k1 + f(t_i + h, y_predict)), t_{i+1} = t_i + h:
    the second evaluation is at the original y_i (plus h*k1). *)
Theorem improved_euler_contract {S : Type} (f : float -> float -> float)
  (y0 t0 : float) (n : nat) (h : float) (w : world S) :
  fst (fst (threaded_funcs.improved_euler (pure_de f) y0 t0 n h w))
    = snd (Spec.heun f h t0 y0 n)
  /\ fst (fst (serial_funcs.improved_euler (pure_de f) y0 t0 n h w))
    = snd (Spec.heun f h t0 y0 n).
Proof.
  split; [run_method @threaded_improved_euler_loop_start
         | run_method @serial_improved_euler_loop_start].
Qed.

(** C3. For every f, y0, t0, n, h, both RK4 integrators return y_n of the
    classical Runge-Kutta recurrence of spec section 4.3. *)
Theorem runge_kutta_contract {S : Type} (f : float -> float -> float)
  (y0 t0 : float) (n : nat) (h : float) (w : world S) :
  fst (fst (threaded_funcs.runge_kutta (pure_de f) y0 t0 n h w))
    = snd (Spec.rk4 f h t0 y0 n)
  /\ fst (fst (serial_funcs.runge_kutta (pure_de f) y0 t0 n h w))
    = snd (Spec.rk4 f h t0 y0 n).
Proof.
  split; [run_method @threaded_runge_kutta_loop_start
         | run_method @serial_runge_kutta_loop_start].
Qed.

(** ** The two copies of each loop are the same loop *)

Section Copies.
Context {S : Type} (de : deriv S).

Ltac same_loop IH :=
  intros; simpl; unfold bind;
  repeat match goal with
         | |- context [call ?d ?t ?y ?w] => destruct (call d t y w)
         end;
  apply IH.

Lemma euler_loop_copies (n : nat) : forall h y t w,
  threaded_funcs.euler_loop de n h y t w = serial_funcs.euler_loop de n h y t w.
Proof. induction n as [|n IH]; [reflexivity | same_loop IH]. Qed.

Lemma improved_euler_loop_copies (n : nat) : forall h hh y t w,
  threaded_funcs.improved_euler_loop de n h hh y t w
  = serial_funcs.improved_euler_loop de n h hh y t w.
Proof. induction n as [|n IH]; [reflexivity | same_loop IH]. Qed.

Lemma runge_kutta_loop_copies (n : nat) : forall h hh sh y t w,
  threaded_funcs.runge_kutta_loop de n h hh sh y t w
  = serial_funcs.runge_kutta_loop de n h hh sh y t w.
Proof. induction n as [|n IH]; [reflexivity | same_loop IH]. Qed.

End Copies.

Ltac unfold_methods :=
  unfold threaded_funcs.euler_method, threaded_funcs.improved_euler,
    threaded_funcs.runge_kutta, serial_funcs.euler_method,
    serial_funcs.improved_euler, serial_funcs.runge_kutta,
    bind, precise_time_s, emit, ret;
  cbn beta iota zeta.

(** C4. For every closure [de] (with or without state of its own) and
    every input, the threaded ([Arc<F>]) and serial ([&F]) copies of each
    integrator return the same final state. *)
Theorem threaded_serial_agree {S : Type} (de : deriv S)
  (y0 t0 : float) (steps : nat) (h : float) (w : world S) :
  fst (fst (threaded_funcs.euler_method de y0 t0 steps h w))
    = fst (fst (serial_funcs.euler_method de y0 t0 steps h w))
  /\ fst (fst (threaded_funcs.improved_euler de y0 t0 steps h w))
    = fst (fst (serial_funcs.improved_euler de y0 t0 steps h w))
  /\ fst (fst (threaded_funcs.runge_kutta de y0 t0 steps h w))
    = fst (fst (serial_funcs.runge_kutta de y0 t0 steps h w)).
Proof.
  unfold_methods.
  rewrite euler_loop_copies, improved_euler_loop_copies, runge_kutta_loop_copies.
  repeat split;
    repeat match goal with
           | |- context [match ?m with pair _ _ => _ end] => destruct m
           end; reflexivity.
Qed.

(** C10. With [steps = 0] each of the six integrators returns [y0] and
    leaves the closure's own state untouched, for every closure: the loop
    body never runs and [de] is never called (a call-counting closure
    still reads 0 new calls). *)
Theorem zero_steps_identity {S : Type} (de : deriv S)
  (y0 t0 h : float) (w : world S) :
  fst (fst (threaded_funcs.euler_method de y0 t0 0 h w)) = y0
  /\ de_st (snd (threaded_funcs.euler_method de y0 t0 0 h w)) = de_st w
  /\ fst (fst (threaded_funcs.improved_euler de y0 t0 0 h w)) = y0
  /\ de_st (snd (threaded_funcs.improved_euler de y0 t0 0 h w)) = de_st w
  /\ fst (fst (threaded_funcs.runge_kutta de y0 t0 0 h w)) = y0
  /\ de_st (snd (threaded_funcs.runge_kutta de y0 t0 0 h w)) = de_st w
  /\ fst (fst (serial_funcs.euler_method de y0 t0 0 h w)) = y0
  /\ de_st (snd (serial_funcs.euler_method de y0 t0 0 h w)) = de_st w
  /\ fst (fst (serial_funcs.improved_euler de y0 t0 0 h w)) = y0
  /\ de_st (snd (serial_funcs.improved_euler de y0 t0 0 h w)) = de_st w
  /\ fst (fst (serial_funcs.runge_kutta de y0 t0 0 h w)) = y0
  /\ de_st (snd (serial_funcs.runge_kutta de y0 t0 0 h w)) = de_st w.
Proof. repeat split. Qed.

(** C7. With a pure derivative, the final state of each integrator depends
    only on (y0, t0, steps, h, f): two runs in any two worlds (other clock
    readings, other output so far, e.g. once alone and once among the
    workers of [main]) return the same float. *)
Theorem integrators_deterministic {S : Type} (f : float -> float -> float)
  (y0 t0 : float) (steps : nat) (h : float) (w1 w2 : world S) :
  fst (fst (threaded_funcs.euler_method (pure_de f) y0 t0 steps h w1))
    = fst (fst (threaded_funcs.euler_method (pure_de f) y0 t0 steps h w2))
  /\ fst (fst (threaded_funcs.improved_euler (pure_de f) y0 t0 steps h w1))
    = fst (fst (threaded_funcs.improved_euler (pure_de f) y0 t0 steps h w2))
  /\ fst (fst (threaded_funcs.runge_kutta (pure_de f) y0 t0 steps h w1))
    = fst (fst (threaded_funcs.runge_kutta (pure_de f) y0 t0 steps h w2))
  /\ fst (fst (serial_funcs.euler_method (pure_de f) y0 t0 steps h w1))
    = fst (fst (serial_funcs.euler_method (pure_de f) y0 t0 steps h w2))
  /\ fst (fst (serial_funcs.improved_euler (pure_de f) y0 t0 steps h w1))
    = fst (fst (serial_funcs.improved_euler (pure_de f) y0 t0 steps h w2))
  /\ fst (fst (serial_funcs.runge_kutta (pure_de f) y0 t0 steps h w1))
    = fst (fst (serial_funcs.runge_kutta (pure_de f) y0 t0 steps h w2)).
Proof.
  unfold_methods.
  rewrite ?threaded_euler_loop_start, ?threaded_improved_euler_loop_start,
    ?threaded_runge_kutta_loop_start, ?serial_euler_loop_start,
    ?serial_improved_euler_loop_start, ?serial_runge_kutta_loop_start.
  repeat split.
Qed.

(** ** Counting the calls of the derivative *)

Section Counting.
Variable f : float -> float -> float.

Ltac count_step IH :=
  intros; simpl; unfold bind, call, counting_de; cbn;
  rewrite IH; cbn; lia.

Lemma euler_loop_calls (n : nat) : forall h y t (w : world nat),
  de_st (snd (threaded_funcs.euler_loop (counting_de f) n h y t w)) = (de_st w + n)%nat.
Proof. induction n as [|n IH]; [intros; cbn; lia | count_step IH]. Qed.

Lemma improved_euler_loop_calls (n : nat) : forall h hh y t (w : world nat),
  de_st (snd (threaded_funcs.improved_euler_loop (counting_de f) n h hh y t w))
  = (de_st w + 2 * n)%nat.
Proof. induction n as [|n IH]; [intros; cbn; lia | count_step IH]. Qed.

Lemma runge_kutta_loop_calls (n : nat) : forall h hh sh y t (w : world nat),
  de_st (snd (threaded_funcs.runge_kutta_loop (counting_de f) n h hh sh y t w))
  = (de_st w + 4 * n)%nat.
Proof. induction n as [|n IH]; [intros; cbn; lia | count_step IH]. Qed.

End Counting.

Ltac method_calls L :=
  unfold_methods;
  rewrite <- ?euler_loop_copies, <- ?improved_euler_loop_copies,
    <- ?runge_kutta_loop_copies;
  lazymatch goal with
  | |- context [match ?m with pair _ _ => _ end] =>
      let r := fresh "r" in let w' := fresh "w'" in let E := fresh "E" in
      destruct m as [r w'] eqn:E;
      let C := fresh "C" in
      pose proof (f_equal (fun p => de_st (snd p)) E) as C;
      cbn in C; rewrite L in C; cbn in C;
      destruct r; cbn; exact (eq_sym C)
  end.

(** C5 (as the code has it). With a call-counting closure, a run of [n]
    steps calls the derivative [n] times in Euler, [2 * n] times in Heun
    and [4 * n] times in Runge-Kutta, in both copies. *)
Theorem derivative_call_counts (f : float -> float -> float)
  (y0 t0 : float) (n : nat) (h : float) (w : world nat) :
  de_st (snd (threaded_funcs.euler_method (counting_de f) y0 t0 n h w)) = (de_st w + n)%nat
  /\ de_st (snd (threaded_funcs.improved_euler (counting_de f) y0 t0 n h w))
     = (de_st w + 2 * n)%nat
  /\ de_st (snd (threaded_funcs.runge_kutta (counting_de f) y0 t0 n h w))
     = (de_st w + 4 * n)%nat
  /\ de_st (snd (serial_funcs.euler_method (counting_de f) y0 t0 n h w)) = (de_st w + n)%nat
  /\ de_st (snd (serial_funcs.improved_euler (counting_de f) y0 t0 n h w))
     = (de_st w + 2 * n)%nat
  /\ de_st (snd (serial_funcs.runge_kutta (counting_de f) y0 t0 n h w))
     = (de_st w + 4 * n)%nat.
Proof.
  repeat split;
    [ method_calls euler_loop_calls | method_calls improved_euler_loop_calls
    | method_calls runge_kutta_loop_calls | method_calls euler_loop_calls
    | method_calls improved_euler_loop_calls | method_calls runge_kutta_loop_calls ].
Qed.

(** C5 fails: one step of Heun calls the derivative twice and one step of
    Runge-Kutta four times, not once. *)
Lemma one_step_call_counts :
  de_st (snd (threaded_funcs.improved_euler (counting_de (fun _ y => y)) 0 0 1 0.1 (w0 0%nat)))
    = 2%nat
  /\ de_st (snd (threaded_funcs.runge_kutta (counting_de (fun _ y => y)) 0 0 1 0.1 (w0 0%nat)))
    = 4%nat.
Proof. split; vm_compute; reflexivity. Qed.

(** ** The loops run a fixed number of times *)

Section FixedCount.
Context {S : Type} (de : deriv S).

Ltac destruct_calls :=
  repeat match goal with
         | |- context [call ?d ?t ?y ?w] => destruct (call d t y w)
         end.

Lemma euler_loop_for_range (n : nat) : forall h y t w,
  threaded_funcs.euler_loop de n h y t w = for_range n (euler_body de h) (y, t) w.
Proof.
  induction n as [|n IH]; [reflexivity|].
  intros; simpl; unfold bind, euler_body, ret; destruct_calls; apply IH.
Qed.

Lemma improved_euler_loop_for_range (n : nat) : forall h hh y t w,
  threaded_funcs.improved_euler_loop de n h hh y t w
  = for_range n (improved_euler_body de h hh) (y, t) w.
Proof.
  induction n as [|n IH]; [reflexivity|].
  intros; simpl; unfold bind, improved_euler_body, ret; destruct_calls; apply IH.
Qed.

Lemma runge_kutta_loop_for_range (n : nat) : forall h hh sh y t w,
  threaded_funcs.runge_kutta_loop de n h hh sh y t w
  = for_range n (runge_kutta_body de h hh sh) (y, t) w.
Proof.
  induction n as [|n IH]; [reflexivity|].
  intros; simpl; unfold bind, runge_kutta_body, ret; destruct_calls; apply IH.
Qed.

Ltac time_step IH :=
  intros; simpl; unfold bind; destruct_calls;
  rewrite IH; exact (Nat.iter_swap _ _ (fun t => t + _) _).

Lemma euler_loop_time (n : nat) : forall h y t w,
  snd (fst (threaded_funcs.euler_loop de n h y t w)) = Nat.iter n (fun t => t + h) t.
Proof. induction n as [|n IH]; [reflexivity | time_step IH]. Qed.

Lemma improved_euler_loop_time (n : nat) : forall h hh y t w,
  snd (fst (threaded_funcs.improved_euler_loop de n h hh y t w))
  = Nat.iter n (fun t => t + h) t.
Proof. induction n as [|n IH]; [reflexivity | time_step IH]. Qed.

Lemma runge_kutta_loop_time (n : nat) : forall h hh sh y t w,
  snd (fst (threaded_funcs.runge_kutta_loop de n h hh sh y t w))
  = Nat.iter n (fun t => t + h) t.
Proof. induction n as [|n IH]; [reflexivity | time_step IH]. Qed.

End FixedCount.

(** C6. For every closure, step count, h and start point, each of the six
    loops is exactly [steps] runs of its body ([for_range] has no exit of
    its own, and no loop takes an end time), so it terminates after
    [steps] iterations; the time it carries is t0 + h added [steps] times,
    whatever drift that accumulates, and it never decides the count. *)
Theorem loops_run_steps_times {S : Type} (de : deriv S)
  (steps : nat) (h half_h sixth_h y t : float) (w : world S) :
  threaded_funcs.euler_loop de steps h y t w = for_range steps (euler_body de h) (y, t) w
  /\ serial_funcs.euler_loop de steps h y t w = for_range steps (euler_body de h) (y, t) w
  /\ threaded_funcs.improved_euler_loop de steps h half_h y t w
     = for_range steps (improved_euler_body de h half_h) (y, t) w
  /\ serial_funcs.improved_euler_loop de steps h half_h y t w
     = for_range steps (improved_euler_body de h half_h) (y, t) w
  /\ threaded_funcs.runge_kutta_loop de steps h half_h sixth_h y t w
     = for_range steps (runge_kutta_body de h half_h sixth_h) (y, t) w
  /\ serial_funcs.runge_kutta_loop de steps h half_h sixth_h y t w
     = for_range steps (runge_kutta_body de h half_h sixth_h) (y, t) w
  /\ snd (fst (threaded_funcs.euler_loop de steps h y t w)) = Nat.iter steps (fun t => t + h) t
  /\ snd (fst (serial_funcs.euler_loop de steps h y t w)) = Nat.iter steps (fun t => t + h) t
  /\ snd (fst (threaded_funcs.improved_euler_loop de steps h half_h y t w))
     = Nat.iter steps (fun t => t + h) t
  /\ snd (fst (serial_funcs.improved_euler_loop de steps h half_h y t w))
     = Nat.iter steps (fun t => t + h) t
  /\ snd (fst (threaded_funcs.runge_kutta_loop de steps h half_h sixth_h y t w))
     = Nat.iter steps (fun t => t + h) t
  /\ snd (fst (serial_funcs.runge_kutta_loop de steps h half_h sixth_h y t w))
     = Nat.iter steps (fun t => t + h) t.
Proof.
  (* The serial loops are the threaded ones up to the name of the fixpoint,
     so the threaded lemmas apply to them by conversion. *)
  repeat split;
    first [ apply euler_loop_for_range | apply improved_euler_loop_for_range
          | apply runge_kutta_loop_for_range | apply euler_loop_time
          | apply improved_euler_loop_time | apply runge_kutta_loop_time ].
Qed.

(** ** NaN and infinities *)

Ltac sf_cases a b :=
  destruct (Prim2SF a) as [[]|[]| |[] ? ?]; destruct (Prim2SF b) as [[]|[]| |[] ? ?];
  cbn; congruence.

Lemma anomalous_add_l (a b : float) :
  anomalous a = true -> anomalous (a + b) = true.
Proof. unfold anomalous. rewrite add_spec. unfold SF64add. sf_cases a b. Qed.

Lemma anomalous_add_r (a b : float) :
  anomalous b = true -> anomalous (a + b) = true.
Proof. unfold anomalous. rewrite add_spec. unfold SF64add. sf_cases a b. Qed.

Lemma anomalous_mul_r (a b : float) :
  anomalous b = true -> anomalous (a * b) = true.
Proof. unfold anomalous. rewrite mul_spec. unfold SF64mul. sf_cases a b. Qed.

Create HintDb anomaly.
#[local] Hint Resolve anomalous_add_l anomalous_add_r anomalous_mul_r : anomaly.

Section Anomalies.
Variable f : float -> float -> float.

Lemma call_logging (t y : float) (w : world (list float)) :
  call (logging_de f) t y w
  = (f t y, mk_world (clock w) (ticks w) (trace w) (de_st w ++ [f t y])).
Proof. reflexivity. Qed.

Ltac run_calls :=
  simpl; unfold bind;
  repeat (rewrite call_logging; cbn beta iota zeta).

Ltac log_finish IH calls :=
  let Hlog := fresh "Hlog" in let Hanom := fresh "Hanom" in
  unfold logs_anomaly in IH |- *;
  destruct IH as [rest [Hlog Hanom]];
  exists (calls ++ rest); split;
  [ rewrite Hlog; cbn; rewrite <- !app_assoc; reflexivity
  | let Hc := fresh "Hc" in
    intros Hc; apply Hanom; cbn in Hc; rewrite ?orb_true_iff in Hc;
    intuition (first [ left; solve [eauto 8 with anomaly] | right; assumption ]) ].

Lemma euler_loop_log (n : nat) : forall h y t (w : world (list float)),
  logs_anomaly y (de_st w) (threaded_funcs.euler_loop (logging_de f) n h y t w).
Proof.
  induction n as [|n IH]; intros h y t w.
  - exists []. rewrite app_nil_r. split; [reflexivity|].
    intros [Hy|Hy]; [exact Hy | discriminate].
  - run_calls.
    specialize (IH h (y + h * f t y) (t + h)
      (mk_world (clock w) (ticks w) (trace w) (de_st w ++ [f t y]))).
    log_finish IH [f t y].
Qed.

Lemma improved_euler_loop_log (n : nat) : forall h hh y t (w : world (list float)),
  logs_anomaly y (de_st w) (threaded_funcs.improved_euler_loop (logging_de f) n h hh y t w).
Proof.
  induction n as [|n IH]; intros h hh y t w.
  - exists []. rewrite app_nil_r. split; [reflexivity|].
    intros [Hy|Hy]; [exact Hy | discriminate].
  - run_calls.
    lazymatch goal with
    | |- logs_anomaly _ _ (threaded_funcs.improved_euler_loop _ _ _ _ ?y' ?t' ?w') =>
        specialize (IH h hh y' t' w')
    end.
    log_finish IH [f t y; f (t + h) (y + h * f t y)].
Qed.

Lemma runge_kutta_loop_log (n : nat) : forall h hh sh y t (w : world (list float)),
  logs_anomaly y (de_st w)
    (threaded_funcs.runge_kutta_loop (logging_de f) n h hh sh y t w).
Proof.
  induction n as [|n IH]; intros h hh sh y t w.
  - exists []. rewrite app_nil_r. split; [reflexivity|].
    intros [Hy|Hy]; [exact Hy | discriminate].
  - run_calls.
    lazymatch goal with
    | |- logs_anomaly _ _ (threaded_funcs.runge_kutta_loop _ _ _ _ _ ?y' ?t' ?w') =>
        specialize (IH h hh sh y' t' w')
    end.
    set (k1 := f t y) in *.
    set (k2 := f (t + hh) (y + hh * k1)) in *.
    set (k3 := f (t + hh) (y + hh * k2)) in *.
    set (k4 := f (t + h) (y + h * k3)) in *.
    log_finish IH [k1; k2; k3; k4].
Qed.

End Anomalies.

Ltac method_log L :=
  unfold_methods;
  lazymatch goal with
  | |- logs_anomaly ?y ?l0 (match ?m with pair _ _ => _ end) =>
      let HL := fresh "HL" in
      assert (HL : logs_anomaly y l0 m) by (exact (L _ _ _ _ _ _)
        || exact (L _ _ _ _ _ _ _) || exact (L _ _ _ _ _ _ _ _));
      revert HL; destruct m as [[yf tf] w']; intros HL;
      unfold logs_anomaly in HL |- *; cbn in HL |- *;
      destruct HL as [calls [Hlog Han]]; exists calls; split; assumption
  end.

(** C9. Every integrator is a total function of its input (no path of the
    model fails), and NaN or infinity propagates: run with a closure that
    logs the values it returns, each of the six integrators ends in a NaN
    or infinite state whenever the start state or any value the derivative
    returned during the run is NaN or infinite. *)
Theorem anomalies_propagate (f : float -> float -> float)
  (y0 t0 : float) (n : nat) (h : float) (w : world (list float)) :
  logs_anomaly y0 (de_st w) (threaded_funcs.euler_method (logging_de f) y0 t0 n h w)
  /\ logs_anomaly y0 (de_st w) (threaded_funcs.improved_euler (logging_de f) y0 t0 n h w)
  /\ logs_anomaly y0 (de_st w) (threaded_funcs.runge_kutta (logging_de f) y0 t0 n h w)
  /\ logs_anomaly y0 (de_st w) (serial_funcs.euler_method (logging_de f) y0 t0 n h w)
  /\ logs_anomaly y0 (de_st w) (serial_funcs.improved_euler (logging_de f) y0 t0 n h w)
  /\ logs_anomaly y0 (de_st w) (serial_funcs.runge_kutta (logging_de f) y0 t0 n h w).
Proof.
  refine (conj _ (conj _ (conj _ (conj _ (conj _ _)))));
    first [ method_log euler_loop_log | method_log improved_euler_loop_log
          | method_log runge_kutta_loop_log ].
Qed.

(** ** [main] dispatches its workers whatever its constants *)

Lemma appends_ret {S A} (a : A) : @appends S A (ret a).
Proof. intros w. exists []. rewrite app_nil_r. reflexivity. Qed.

Lemma appends_bind {S A B} (m : M S A) (k : A -> M S B) :
  appends m -> (forall a, appends (k a)) -> appends (bind m k).
Proof.
  intros Hm Hk w. unfold bind. destruct (Hm w) as [s1 E1].
  destruct (m w) as [a w1]. destruct (Hk a w1) as [s2 E2].
  exists (s1 ++ s2). cbn in E1. rewrite E2, E1, app_assoc. reflexivity.
Qed.

Lemma appends_emit {S} (e : event) : @appends S unit (emit e).
Proof. intros w. exists [e]. reflexivity. Qed.

Lemma appends_time {S} : @appends S float precise_time_s.
Proof. intros w. exists []. rewrite app_nil_r. reflexivity. Qed.

Lemma appends_call {S} (de : deriv S) t y : appends (call de t y).
Proof.
  intros w. exists []. rewrite app_nil_r. unfold call.
  destruct (de t y (de_st w)). reflexivity.
Qed.

Create HintDb appends.
#[local] Hint Resolve appends_ret appends_emit appends_time appends_call : appends.

Ltac appends_tac :=
  repeat first
    [ apply appends_bind; [ | intros [? ?] || intros ? ]
    | solve [eauto with appends] ].

Section Appends.
Context {S : Type} (de : deriv S).

Lemma appends_euler_loop n : forall h y t, appends (threaded_funcs.euler_loop de n h y t).
Proof. induction n; intros; simpl; appends_tac; apply IHn. Qed.

Lemma appends_improved_euler_loop n : forall h hh y t,
  appends (threaded_funcs.improved_euler_loop de n h hh y t).
Proof. induction n; intros; simpl; appends_tac; apply IHn. Qed.

Lemma appends_runge_kutta_loop n : forall h hh sh y t,
  appends (threaded_funcs.runge_kutta_loop de n h hh sh y t).
Proof. induction n; intros; simpl; appends_tac; apply IHn. Qed.

End Appends.

#[local] Hint Resolve appends_euler_loop appends_improved_euler_loop
  appends_runge_kutta_loop : appends.

Lemma appends_methods {S} (de : deriv S) y0 t0 steps h :
  appends (threaded_funcs.euler_method de y0 t0 steps h)
  /\ appends (threaded_funcs.improved_euler de y0 t0 steps h)
  /\ appends (threaded_funcs.runge_kutta de y0 t0 steps h)
  /\ appends (serial_funcs.euler_method de y0 t0 steps h)
  /\ appends (serial_funcs.improved_euler de y0 t0 steps h)
  /\ appends (serial_funcs.runge_kutta de y0 t0 steps h).
Proof.
  unfold threaded_funcs.euler_method, threaded_funcs.improved_euler,
    threaded_funcs.runge_kutta, serial_funcs.euler_method,
    serial_funcs.improved_euler, serial_funcs.runge_kutta.
  repeat split; appends_tac;
    first [ apply appends_euler_loop | apply appends_improved_euler_loop
          | apply appends_runge_kutta_loop ].
Qed.

Lemma bind_emit {S B} (e : event) (k : unit -> M S B) (w : world S) :
  bind (emit e) k w = k tt (mk_world (clock w) (ticks w) (trace w ++ [e]) (de_st w)).
Proof. reflexivity. Qed.

Lemma bind_time {S B} (k : float -> M S B) (w : world S) :
  bind precise_time_s k w
  = k (clock w (ticks w)) (mk_world (clock w) (Nat.succ (ticks w)) (trace w) (de_st w)).
Proof. reflexivity. Qed.

(** C8 (as the code has it). [main] checks none of its constants: for every
    [Y0], [T0], [T_END], [H] (and every [pow]) it prints its header and
    spawns the three workers with [steps = ((T_END - T0)/H).round() as usize],
    the saturating cast of [steps_of]; no path stops before the spawns. *)
Theorem main_always_dispatches (powf : float -> float -> float) (c : config)
  (w : world unit) :
  exists rest,
    trace (snd (main_with powf c w))
    = trace w
      ++ PrintLine "----Threaded Execution with Atomic Reference Counting----"
      :: spawns (steps_of c) ++ rest.
Proof.
  unfold main_with.
  rewrite bind_emit. cbv beta zeta.
  rewrite bind_time, !bind_emit.
  lazymatch goal with
  | |- exists _, trace (snd (bind ?X ?K ?W)) = _ =>
      assert (HA : appends (bind X K));
      [ appends_tac; apply appends_methods | destruct (HA W) as [sfx Hs] ]
  end.
  exists sfx. rewrite Hs. cbn. rewrite <- !app_assoc. reflexivity.
Qed.

(** C8 fails: with [H = -1.0] (a negative step) [main] still spawns its
    three workers, with 0 steps; with [H = 0.0] the step count is
    [usize::MAX]. [pow] is never evaluated in a run of 0 steps. *)
Lemma main_dispatches_on_invalid_step :
  steps_of (mk_config 0 0 5 (-1)) = 0%nat
  /\ firstn 4 (trace (snd (main_with (fun y _ => y) (mk_config 0 0 5 (-1)) (w0 tt))))
     = PrintLine "----Threaded Execution with Atomic Reference Counting----"
       :: spawns 0
  /\ round_as_usize ((5 - 0) / 0) = usize_max.
Proof. vm_compute. repeat split. Qed.

(** A NaN returned once, at the second step, reaches the final state of the
    Euler integrator. *)
Example nan_at_step_two :
  let f := fun t y => if PrimFloat.ltb 0.5 t then nan else 1 in
  anomalous (fst (fst (threaded_funcs.euler_method (logging_de f) 0 0 4 1 (w0 [])))) = true
  /\ de_st (snd (threaded_funcs.euler_method (logging_de f) 0 0 4 1 (w0 []))) = [1; nan; nan; nan].
Proof. vm_compute. split; reflexivity. Qed.

(** ** Timing and output of each integrator *)

Lemma quiet_ret {S A} (a : A) : @quiet S A (ret a).
Proof. intros w. repeat split. Qed.

Lemma quiet_call {S} (de : deriv S) t y : quiet (call de t y).
Proof. intros w. unfold call. destruct (de t y (de_st w)). repeat split. Qed.

Lemma quiet_bind {S A B} (m : M S A) (k : A -> M S B) :
  quiet m -> (forall a, quiet (k a)) -> quiet (bind m k).
Proof.
  intros Hm Hk w. unfold bind. destruct (Hm w) as (C1 & T1 & R1).
  destruct (m w) as [a w1]. destruct (Hk a w1) as (C2 & T2 & R2).
  cbn in *. rewrite C2, T2, R2. auto.
Qed.

Create HintDb quiet.
#[local] Hint Resolve quiet_ret quiet_call : quiet.

Ltac quiet_tac :=
  repeat first
    [ apply quiet_bind; [ | intros [? ?] || intros ? ]
    | solve [eauto with quiet] ].

Section Quiet.
Context {S : Type} (de : deriv S).

Lemma quiet_euler_loop n : forall h y t, quiet (threaded_funcs.euler_loop de n h y t).
Proof. induction n; intros; simpl; quiet_tac; apply IHn. Qed.

Lemma quiet_improved_euler_loop n : forall h hh y t,
  quiet (threaded_funcs.improved_euler_loop de n h hh y t).
Proof. induction n; intros; simpl; quiet_tac; apply IHn. Qed.

Lemma quiet_runge_kutta_loop n : forall h hh sh y t,
  quiet (threaded_funcs.runge_kutta_loop de n h hh sh y t).
Proof. induction n; intros; simpl; quiet_tac; apply IHn. Qed.

End Quiet.

(** Run a method whose loop is quiet: name the loop's result. *)
Ltac open_loop :=
  unfold_methods;
  lazymatch goal with
  | |- context [match ?m with pair _ _ => _ end] =>
      let HQ := fresh "HQ" in
      assert (HQ : clock (snd m) = _ /\ ticks (snd m) = _ /\ trace (snd m) = _)
        by (first [ apply quiet_euler_loop | apply quiet_improved_euler_loop
                  | apply quiet_runge_kutta_loop ]);
      revert HQ; destruct m as [[yf tf] w']; intros (C & T & R);
      cbn in C, T, R |- *
  end.

(** X1. The elapsed time each of the six integrators returns is the difference
    of the two clock readings around its loop, and the loop reads no clock
    itself: a run takes exactly two readings. *)
Theorem elapsed_is_two_readings {S : Type} (de : deriv S)
  (y0 t0 : float) (steps : nat) (h : float) (w : world S) :
  let elapsed := clock w (Nat.succ (ticks w)) - clock w (ticks w) in
  (snd (fst (threaded_funcs.euler_method de y0 t0 steps h w)) = elapsed
   /\ ticks (snd (threaded_funcs.euler_method de y0 t0 steps h w)) = (ticks w + 2)%nat)
  /\ (snd (fst (threaded_funcs.improved_euler de y0 t0 steps h w)) = elapsed
   /\ ticks (snd (threaded_funcs.improved_euler de y0 t0 steps h w)) = (ticks w + 2)%nat)
  /\ (snd (fst (threaded_funcs.runge_kutta de y0 t0 steps h w)) = elapsed
   /\ ticks (snd (threaded_funcs.runge_kutta de y0 t0 steps h w)) = (ticks w + 2)%nat)
  /\ (snd (fst (serial_funcs.euler_method de y0 t0 steps h w)) = elapsed
   /\ ticks (snd (serial_funcs.euler_method de y0 t0 steps h w)) = (ticks w + 2)%nat)
  /\ (snd (fst (serial_funcs.improved_euler de y0 t0 steps h w)) = elapsed
   /\ ticks (snd (serial_funcs.improved_euler de y0 t0 steps h w)) = (ticks w + 2)%nat)
  /\ (snd (fst (serial_funcs.runge_kutta de y0 t0 steps h w)) = elapsed
   /\ ticks (snd (serial_funcs.runge_kutta de y0 t0 steps h w)) = (ticks w + 2)%nat).
Proof.
  intros elapsed.
  repeat split; open_loop; rewrite ?C, ?T; try reflexivity; rewrite Nat.add_comm; reflexivity.
Qed.

(** X2. The threaded integrators print nothing; each serial integrator prints
    exactly one line, [PrintApprox] of the pair it returns, after its loop. *)
Theorem method_output {S : Type} (de : deriv S)
  (y0 t0 : float) (steps : nat) (h : float) (w : world S) :
  trace (snd (threaded_funcs.euler_method de y0 t0 steps h w)) = trace w
  /\ trace (snd (threaded_funcs.improved_euler de y0 t0 steps h w)) = trace w
  /\ trace (snd (threaded_funcs.runge_kutta de y0 t0 steps h w)) = trace w
  /\ (let r := fst (serial_funcs.euler_method de y0 t0 steps h w) in
      trace (snd (serial_funcs.euler_method de y0 t0 steps h w))
      = trace w ++ [PrintApprox "Euler" (fst r) (snd r)])
  /\ (let r := fst (serial_funcs.improved_euler de y0 t0 steps h w) in
      trace (snd (serial_funcs.improved_euler de y0 t0 steps h w))
      = trace w ++ [PrintApprox "Heun" (fst r) (snd r)])
  /\ (let r := fst (serial_funcs.runge_kutta de y0 t0 steps h w) in
      trace (snd (serial_funcs.runge_kutta de y0 t0 steps h w))
      = trace w ++ [PrintApprox "Runge Kutta" (fst r) (snd r)]).
Proof.
  repeat split; cbv zeta; open_loop; rewrite ?R; reflexivity.
Qed.

(** ** Splitting a run of the loops *)

Section Split.
Context {S : Type} (de : deriv S).

Ltac split_step IH :=
  let w := fresh "w" in
  intros; simpl; unfold bind;
  repeat match goal with |- context [call de ?t ?y ?w] => destruct (call de t y w) end;
  apply IH.

Lemma euler_loop_split (n m : nat) : forall h y t w,
  threaded_funcs.euler_loop de (n + m) h y t w
  = ('(y', t') <- threaded_funcs.euler_loop de n h y t ;;
     threaded_funcs.euler_loop de m h y' t') w.
Proof. induction n as [|n IH]; [reflexivity | split_step IH]. Qed.

Lemma improved_euler_loop_split (n m : nat) : forall h hh y t w,
  threaded_funcs.improved_euler_loop de (n + m) h hh y t w
  = ('(y', t') <- threaded_funcs.improved_euler_loop de n h hh y t ;;
     threaded_funcs.improved_euler_loop de m h hh y' t') w.
Proof. induction n as [|n IH]; [reflexivity | split_step IH]. Qed.

Lemma runge_kutta_loop_split (n m : nat) : forall h hh sh y t w,
  threaded_funcs.runge_kutta_loop de (n + m) h hh sh y t w
  = ('(y', t') <- threaded_funcs.runge_kutta_loop de n h hh sh y t ;;
     threaded_funcs.runge_kutta_loop de m h hh sh y' t') w.
Proof. induction n as [|n IH]; [reflexivity | split_step IH]. Qed.

End Split.

(** X3. A loop of [n + m] steps is the loop of [n] steps followed by the loop of
    [m] steps from the state it reached, for every closure, in the threaded
    and the serial copies: the loop state [(ycurrent, tcurrent)] is all that
    one step hands to the next. *)
Theorem loops_split {S : Type} (de : deriv S) (n m : nat)
  (h half_h sixth_h y t : float) (w : world S) :
  threaded_funcs.euler_loop de (n + m) h y t w
  = ('(y', t') <- threaded_funcs.euler_loop de n h y t ;;
     threaded_funcs.euler_loop de m h y' t') w
  /\ threaded_funcs.improved_euler_loop de (n + m) h half_h y t w
  = ('(y', t') <- threaded_funcs.improved_euler_loop de n h half_h y t ;;
     threaded_funcs.improved_euler_loop de m h half_h y' t') w
  /\ threaded_funcs.runge_kutta_loop de (n + m) h half_h sixth_h y t w
  = ('(y', t') <- threaded_funcs.runge_kutta_loop de n h half_h sixth_h y t ;;
     threaded_funcs.runge_kutta_loop de m h half_h sixth_h y' t') w
  /\ serial_funcs.euler_loop de (n + m) h y t w
  = ('(y', t') <- serial_funcs.euler_loop de n h y t ;;
     serial_funcs.euler_loop de m h y' t') w
  /\ serial_funcs.improved_euler_loop de (n + m) h half_h y t w
  = ('(y', t') <- serial_funcs.improved_euler_loop de n h half_h y t ;;
     serial_funcs.improved_euler_loop de m h half_h y' t') w
  /\ serial_funcs.runge_kutta_loop de (n + m) h half_h sixth_h y t w
  = ('(y', t') <- serial_funcs.runge_kutta_loop de n h half_h sixth_h y t ;;
     serial_funcs.runge_kutta_loop de m h half_h sixth_h y' t') w.
Proof.
  repeat split;
    first [ apply euler_loop_split | apply improved_euler_loop_split
          | apply runge_kutta_loop_split ].
Qed.


(** ** The output of [main] *)

Section PureMethods.
Context {S : Type} (f : float -> float -> float) (y0 t0 : float) (n : nat) (h : float)
  (clk : nat -> float) (k : nat) (tr : list event) (s : S).

Ltac pure_method start :=
  unfold_methods; rewrite start; rewrite ?app_nil_r; reflexivity.

Lemma threaded_euler_pure :
  threaded_funcs.euler_method (pure_de f) y0 t0 n h (mk_world clk k tr s)
  = ((snd (Spec.euler f h t0 y0 n), clk (1 + k)%nat - clk k),
     mk_world clk (2 + k) tr s).
Proof. pure_method @threaded_euler_loop_start. Qed.

Lemma threaded_improved_euler_pure :
  threaded_funcs.improved_euler (pure_de f) y0 t0 n h (mk_world clk k tr s)
  = ((snd (Spec.heun f h t0 y0 n), clk (1 + k)%nat - clk k),
     mk_world clk (2 + k) tr s).
Proof. pure_method @threaded_improved_euler_loop_start. Qed.

Lemma threaded_runge_kutta_pure :
  threaded_funcs.runge_kutta (pure_de f) y0 t0 n h (mk_world clk k tr s)
  = ((snd (Spec.rk4 f h t0 y0 n), clk (1 + k)%nat - clk k),
     mk_world clk (2 + k) tr s).
Proof. pure_method @threaded_runge_kutta_loop_start. Qed.

Lemma serial_euler_pure :
  let y := snd (Spec.euler f h t0 y0 n) in
  let secs := clk (1 + k)%nat - clk k in
  serial_funcs.euler_method (pure_de f) y0 t0 n h (mk_world clk k tr s)
  = ((y, secs),
     mk_world clk (2 + k) (tr ++ [PrintApprox "Euler" y secs]) s).
Proof. pure_method @serial_euler_loop_start. Qed.

Lemma serial_improved_euler_pure :
  let y := snd (Spec.heun f h t0 y0 n) in
  let secs := clk (1 + k)%nat - clk k in
  serial_funcs.improved_euler (pure_de f) y0 t0 n h (mk_world clk k tr s)
  = ((y, secs),
     mk_world clk (2 + k) (tr ++ [PrintApprox "Heun" y secs]) s).
Proof. pure_method @serial_improved_euler_loop_start. Qed.

Lemma serial_runge_kutta_pure :
  let y := snd (Spec.rk4 f h t0 y0 n) in
  let secs := clk (1 + k)%nat - clk k in
  serial_funcs.runge_kutta (pure_de f) y0 t0 n h (mk_world clk k tr s)
  = ((y, secs),
     mk_world clk (2 + k) (tr ++ [PrintApprox "Runge Kutta" y secs]) s).
Proof. pure_method @serial_runge_kutta_loop_start. Qed.

End PureMethods.

Lemma bind_pair_eq {S A B} (m : M S A) (k : A -> M S B) (w : world S) a w' r :
  m w = (a, w') -> k a w' = r -> bind m k w = r.
Proof. intros E1 E2. unfold bind. rewrite E1. exact E2. Qed.

Lemma bind_emit_eq {S B} (e : event) (k : unit -> M S B) clk t tr (s : S) r :
  k tt (mk_world clk t (tr ++ [e]) s) = r -> bind (emit e) k (mk_world clk t tr s) = r.
Proof. intros E. exact E. Qed.

Lemma bind_time_eq {S B} (k : float -> M S B) clk t tr (s : S) r :
  k (clk t) (mk_world clk (Nat.succ t) tr s) = r
  -> bind precise_time_s k (mk_world clk t tr s) = r.
Proof. intros E. exact E. Qed.

(** Run a block of [main] whose integrators use pure closures. *)
Ltac run_main :=
  repeat lazymatch goal with
  | |- bind (emit _) _ _ = _ => apply bind_emit_eq; cbv beta zeta
  | |- bind precise_time_s _ _ = _ => apply bind_time_eq; cbv beta zeta
  | |- bind (threaded_funcs.euler_method _ _ _ _ _) _ _ = _ =>
      eapply bind_pair_eq; [apply threaded_euler_pure | cbv beta zeta]
  | |- bind (threaded_funcs.improved_euler _ _ _ _ _) _ _ = _ =>
      eapply bind_pair_eq; [apply threaded_improved_euler_pure | cbv beta zeta]
  | |- bind (threaded_funcs.runge_kutta _ _ _ _ _) _ _ = _ =>
      eapply bind_pair_eq; [apply threaded_runge_kutta_pure | cbv beta zeta]
  | |- bind (serial_funcs.euler_method _ _ _ _ _) _ _ = _ =>
      eapply bind_pair_eq; [apply serial_euler_pure | cbv beta zeta]
  | |- bind (serial_funcs.improved_euler _ _ _ _ _) _ _ = _ =>
      eapply bind_pair_eq; [apply serial_improved_euler_pure | cbv beta zeta]
  | |- bind (serial_funcs.runge_kutta _ _ _ _ _) _ _ = _ =>
      eapply bind_pair_eq; [apply serial_runge_kutta_pure | cbv beta zeta]
  | |- emit _ _ = _ => reflexivity
  end.

(** X4. The whole output of [main]: the header, the three spawns, the three
    threaded results in join order, the serial section with the same three
    approximations, and the totals. It reads the clock 14 times (readings
    k .. k+13 of a run started after k readings): the threaded total spans
    readings k to k+7, each integrator's time is the difference of its own
    two readings, the serialized time adds the three serial ones to 0.0, and
    the gains are serialized minus threaded. *)
Theorem main_output (powf : float -> float -> float) (c : config) (w : world unit) :
  let k := ticks w in
  let clk := clock w in
  let steps := steps_of c in
  let ye := snd (Spec.euler (de powf) (H c) (T0 c) (Y0 c) steps) in
  let yh := snd (Spec.heun (de powf) (H c) (T0 c) (Y0 c) steps) in
  let yr := snd (Spec.rk4 (de powf) (H c) (T0 c) (Y0 c) steps) in
  let total := clk (7 + k)%nat - clk k in
  let serialized := 0 + (clk (9 + k)%nat - clk (8 + k)%nat) + (clk (11 + k)%nat - clk (10 + k)%nat)
                    + (clk (13 + k)%nat - clk (12 + k)%nat) in
  trace (snd (main_with powf c w))
  = trace w
    ++ PrintLine "----Threaded Execution with Atomic Reference Counting----"
    :: spawns steps
    ++ [PrintApprox "Euler" ye (clk (2 + k)%nat - clk (1 + k)%nat);
        PrintApprox "Heun" yh (clk (4 + k)%nat - clk (3 + k)%nat);
        PrintApprox "Runge Kutta" yr (clk (6 + k)%nat - clk (5 + k)%nat);
        PrintLine "----Serialized Execution without Arc----";
        PrintApprox "Euler" ye (clk (9 + k)%nat - clk (8 + k)%nat);
        PrintApprox "Heun" yh (clk (11 + k)%nat - clk (10 + k)%nat);
        PrintApprox "Runge Kutta" yr (clk (13 + k)%nat - clk (12 + k)%nat);
        PrintLine "---RESULTS---";
        PrintTotal "Threaded" total;
        PrintTotal "Serialized" serialized;
        PrintTotal "Gains from Threading" (serialized - total)]
  /\ ticks (snd (main_with powf c w)) = (14 + k)%nat.
Proof.
  intros.
  eassert (Hrun : main_with powf c (mk_world clk k (trace w) (de_st w)) = (_, _))
    by (unfold main_with; cbv zeta; run_main).
  change (main_with powf c w) with (main_with powf c (mk_world clk k (trace w) (de_st w))).
  rewrite Hrun. cbn.
  split; [rewrite <- !app_assoc; reflexivity | reflexivity].
Qed.

(** ** The step count of [main] *)

(** The sign of a rounded result is the sign it was given. *)
Lemma round_aux_sign (prec emax : Z) sx mx ex lx :
  match binary_round_aux prec emax sx mx ex lx with
  | S754_zero s | S754_infinity s | S754_finite s _ _ => s = sx
  | S754_nan => True
  end.
Proof.
  unfold binary_round_aux.
  destruct (shr_fexp prec emax mx ex lx) as [mrs' e'].
  destruct (shr_fexp prec emax _ e' loc_Exact) as [mrs'' e''].
  destruct (shr_m mrs''); [reflexivity | destruct (_ <=? _)%Z; reflexivity | exact I].
Qed.

(** [round_as_usize] is 0 on every float that is not strictly positive. *)
Lemma round_as_usize_nonpos (x : float) :
  match Prim2SF x with
  | S754_finite false _ _ | S754_infinity false => False
  | _ => True
  end -> round_as_usize x = 0%Z.
Proof.
  unfold round_as_usize. destruct (Prim2SF x) as [[]|[]| |[] m e]; easy.
Qed.

(** X5. [main] computes 0 steps whenever [(T_END - T0)/H] is not a
    positive number: a span of at most 0 with a positive step, a span of at
    least 0 with a negative step, or a NaN span or step. The integrators then
    run no step at all. *)
Theorem steps_of_nonpositive_quotient (c : config)
  (Hq : ((T_END c - T0 c <=? 0)%float = true /\ (0 <? H c)%float = true)
        \/ ((0 <=? T_END c - T0 c)%float = true /\ (H c <? 0)%float = true)
        \/ (H c =? H c)%float = false
        \/ (T_END c - T0 c =? T_END c - T0 c)%float = false) :
  steps_of c = 0%nat.
Proof.
  unfold steps_of. rewrite round_as_usize_nonpos; [reflexivity|].
  rewrite div_spec. unfold SF64div.
  rewrite ?leb_spec, ?ltb_spec, ?eqb_spec in Hq.
  change (Prim2SF 0) with (S754_zero false) in Hq.
  destruct (Prim2SF (T_END c - T0 c)) as [sa|sa| |sa ma ea];
  destruct (Prim2SF (H c)) as [sb|sb| |sb mb eb];
  try destruct sa; try destruct sb; cbn in Hq |- *;
  rewrite ?Z.compare_refl, ?Pos.compare_cont_refl in Hq; cbn in Hq;
  try exact I;
  try (destruct Hq as [[? ?]|[[? ?]|[?|?]]]; discriminate).
  all: lazymatch goal with |- context [SFdiv_core_binary ?a ?b ?c ?d] =>
         destruct (SFdiv_core_binary a b c d) as [[mz ez] lz] end.
  all: lazymatch goal with |- context [binary_round_aux ?p ?e ?s ?m ?x ?l] =>
         pose proof (round_aux_sign p e s m x l) as Hs;
         destruct (binary_round_aux p e s m x l) as [[]|[]| |[] ? ?] end.
  all: cbn in Hs |- *; try discriminate; try exact I.
Qed.

(** X6. Below [usize::MAX], [x.round() as usize] of a positive float
    x = m * 2^e with e < 0 is the integer r with r - 1/2 <= x < r + 1/2:
    the nearest integer, with half-way cases going up (away from zero). *)
Theorem round_as_usize_nearest (x : float) (m : positive) (e : Z)
  (Hx : Prim2SF x = S754_finite false m e) (He : (e < 0)%Z)
  (Hr : (round_as_usize x < usize_max)%Z) :
  (2 ^ (- e) * (2 * round_as_usize x - 1) <= 2 * Z.pos m
   < 2 ^ (- e) * (2 * round_as_usize x + 1))%Z.
Proof.
  unfold round_as_usize in *. rewrite Hx in *.
  replace (0 <=? e)%Z with false in * by (symmetry; apply Z.leb_gt; exact He).
  cbv zeta in *.
  assert (Hk : (0 <= - e)%Z) by lia.
  rewrite Z.shiftr_div_pow2 in * by exact Hk.
  set (p := (2 ^ (- e))%Z) in *.
  assert (Hp : (0 < p)%Z) by (apply Z.pow_pos_nonneg; lia).
  pose proof (Z.div_mod (Z.pos m) p ltac:(lia)) as Hdm.
  pose proof (Z.mod_pos_bound (Z.pos m) p Hp) as Hb.
  set (q := (Z.pos m / p)%Z) in *.
  assert (Hrem : (Z.pos m - q * p = Z.pos m mod p)%Z) by lia.
  rewrite Hrem in *.
  destruct (p <=? 2 * (Z.pos m mod p))%Z eqn:Hc;
    [apply Z.leb_le in Hc | apply Z.leb_gt in Hc];
    [ destruct (Z.min_spec (q + 1) usize_max) as [[_ E]|[_ E]]
    | destruct (Z.min_spec q usize_max) as [[_ E]|[_ E]] ];
    rewrite E in *; try lia; nia.
Qed.

(** X7. For a positive span, a step [H = 0.0] gives the saturated step count
    [usize::MAX] (the quotient is +inf), while [H = -0.0] gives 0 steps (the
    quotient is -inf). *)
Theorem zero_step_saturates (t0 t_end : float)
  (Hspan : (0 <? t_end - t0)%float = true) :
  round_as_usize ((t_end - t0) / 0) = usize_max
  /\ round_as_usize ((t_end - t0) / -0) = 0%Z.
Proof.
  unfold round_as_usize. rewrite !div_spec. unfold SF64div.
  rewrite ltb_spec in Hspan.
  change (Prim2SF 0) with (S754_zero false) in *.
  change (Prim2SF (-0)) with (S754_zero true).
  destruct (Prim2SF (t_end - t0)) as [[]|[]| |[] ? ?]; cbn in Hspan |- *;
    try discriminate; split; reflexivity.
Qed.


(** X9. When the step count is 0, the whole run of [main] (its output, clock
    readings and result) is the same for every [pow]: neither closure is
    ever evaluated. *)
Theorem main_zero_steps_ignores_pow (p1 p2 : float -> float -> float) (c : config)
  (w : world unit) (Hs : steps_of c = 0%nat) :
  main_with p1 c w = main_with p2 c w.
Proof.
  unfold main_with. cbv zeta. rewrite Hs. reflexivity.
Qed.

Section Autonomous.
Context {S : Type} (f : float -> float -> float)
  (Hf : forall t t' y, f t y = f t' y).

Lemma euler_loop_autonomous (n : nat) : forall h y t t' (w : world S),
  fst (fst (threaded_funcs.euler_loop (pure_de f) n h y t w))
  = fst (fst (threaded_funcs.euler_loop (pure_de f) n h y t' w)).
Proof.
  induction n as [|n IH]; intros; [reflexivity|].
  cbn [threaded_funcs.euler_loop]. unfold bind. rewrite !call_pure.
  rewrite (Hf t t' y). apply IH.
Qed.

Lemma improved_euler_loop_autonomous (n : nat) : forall h hh y t t' (w : world S),
  fst (fst (threaded_funcs.improved_euler_loop (pure_de f) n h hh y t w))
  = fst (fst (threaded_funcs.improved_euler_loop (pure_de f) n h hh y t' w)).
Proof.
  induction n as [|n IH]; intros; [reflexivity|].
  cbn [threaded_funcs.improved_euler_loop]. unfold bind. rewrite !call_pure.
  rewrite (Hf t t' y), !(Hf (t + h) (t' + h)). apply IH.
Qed.

Lemma runge_kutta_loop_autonomous (n : nat) : forall h hh sh y t t' (w : world S),
  fst (fst (threaded_funcs.runge_kutta_loop (pure_de f) n h hh sh y t w))
  = fst (fst (threaded_funcs.runge_kutta_loop (pure_de f) n h hh sh y t' w)).
Proof.
  induction n as [|n IH]; intros; [reflexivity|].
  cbn [threaded_funcs.runge_kutta_loop]. unfold bind. rewrite !call_pure.
  rewrite (Hf t t' y), !(Hf (t + hh) (t' + hh)), !(Hf (t + h) (t' + h)). apply IH.
Qed.

End Autonomous.

(** X10. The closure of [main] and [serial_funcs::regular_de] never read [t]:
    the approximation each of the six integrators returns for them is the
    same for every start time [t0]. *)
Theorem approximations_ignore_t0 (powf : float -> float -> float)
  (y0 t0 t0' : float) (steps : nat) (h : float) (w : world unit) :
  fst (fst (threaded_funcs.euler_method (pure_de (de powf)) y0 t0 steps h w))
    = fst (fst (threaded_funcs.euler_method (pure_de (de powf)) y0 t0' steps h w))
  /\ fst (fst (threaded_funcs.improved_euler (pure_de (de powf)) y0 t0 steps h w))
    = fst (fst (threaded_funcs.improved_euler (pure_de (de powf)) y0 t0' steps h w))
  /\ fst (fst (threaded_funcs.runge_kutta (pure_de (de powf)) y0 t0 steps h w))
    = fst (fst (threaded_funcs.runge_kutta (pure_de (de powf)) y0 t0' steps h w))
  /\ fst (fst (serial_funcs.euler_method (pure_de (serial_funcs.regular_de powf)) y0 t0 steps h w))
    = fst (fst (serial_funcs.euler_method (pure_de (serial_funcs.regular_de powf)) y0 t0' steps h w))
  /\ fst (fst (serial_funcs.improved_euler (pure_de (serial_funcs.regular_de powf)) y0 t0 steps h w))
    = fst (fst (serial_funcs.improved_euler (pure_de (serial_funcs.regular_de powf)) y0 t0' steps h w))
  /\ fst (fst (serial_funcs.runge_kutta (pure_de (serial_funcs.regular_de powf)) y0 t0 steps h w))
    = fst (fst (serial_funcs.runge_kutta (pure_de (serial_funcs.regular_de powf)) y0 t0' steps h w)).
Proof.
  unfold_methods.
  repeat split;
    lazymatch goal with
    | |- fst (fst (match ?L1 with _ => _ end)) = fst (fst (match ?L2 with _ => _ end)) =>
        assert (E : fst (fst L1) = fst (fst L2))
          by (first [ apply euler_loop_autonomous | apply improved_euler_loop_autonomous
                    | apply runge_kutta_loop_autonomous ]; reflexivity);
        destruct L1 as [[y1 t1] w1]; destruct L2 as [[y2 t2] w2]; exact E
    end.
Qed.

Lemma steps_of_nonpositive_quotient_witness :
  steps_of (mk_config 0 0 5 (-1)) = 0%nat.
Proof.
  apply steps_of_nonpositive_quotient. right; left. split; vm_compute; reflexivity.
Defined.

Lemma zero_step_saturates_witness :
  round_as_usize ((5 - 0) / 0) = usize_max /\ round_as_usize ((5 - 0) / -0) = 0%Z.
Proof. apply zero_step_saturates. vm_compute. reflexivity. Defined.

Lemma round_as_usize_nearest_witness :
  (2 ^ (- -51) * (2 * round_as_usize 2.5 - 1) <= 2 * Z.pos 5629499534213120
   < 2 ^ (- -51) * (2 * round_as_usize 2.5 + 1))%Z.
Proof.
  apply round_as_usize_nearest;
    [vm_compute; reflexivity | lia | vm_compute; reflexivity].
Defined.

Lemma main_zero_steps_ignores_pow_witness :
  main_with (fun y _ => y) (mk_config 0 0 5 (-1)) (w0 tt)
  = main_with (fun _ _ => 0) (mk_config 0 0 5 (-1)) (w0 tt).
Proof. apply main_zero_steps_ignores_pow. vm_compute. reflexivity. Defined.
